(** * createReducer: a reducer built from a map of case reducers

    A shallow embedding of [src/createReducer.ts].  The reducer returned by
    [createReducer] threads the JavaScript heap explicitly, so that object
    identity ([===] on references) and the contents of the previous state
    object can both be talked about. *)

From Stdlib Require Import Ascii.
From stdpp Require Import gmap strings list fin_maps pretty functions.

Set Warnings "-register-all".

(** ** JavaScript values and the heap *)

Definition loc := positive.

(** A value is a primitive or a reference to a heap object; [===] on two
    values is Rocq equality. [VNumber n] is the number whose value is the
    integer [n]; every integer below 2^53 in size is one, beyond that those
    with a 53-bit mantissa are. *)
Inductive value :=
| VUndefined
| VNull
| VBool (b : bool)
| VNumber (n : Z)
| VString (s : string)
| VObject (l : loc).

#[global] Instance value_eq_dec : EqDecision value.
Proof. solve_decision. Defined.

#[global] Instance value_inhabited : Inhabited value := populate VUndefined.

(** A heap object is the finite map of its own string-keyed data properties;
    the heap maps references to objects. *)
Abbreviation object := (gmap string value).
Abbreviation heap := (gmap loc object).

(** The action handed to a reducer: the code reads [action.type] only, the
    case reducers may read the rest. *)
Record Action := { type : value; payload : value }.

(** ECMAScript [ToBoolean], as used by the conditional operator. *)
Definition ToBoolean (v : value) : bool :=
  match v with
  | VUndefined | VNull => false
  | VBool b => b
  | VNumber n => negb (n =? 0)%Z
  | VString s => negb (String.eqb s "")
  | VObject _ => true
  end.

(** ECMAScript [Number::toString] in radix 10, for a number whose value is
    an integer: the shortest decimal that still rounds to the number, padded
    with zeros up to 21 digits and in exponent form beyond. *)
Module NumberToString.

(** [v] lies in the interval of the reals that round to the number [x]
    (for [x] from 2^53 on): half way to each neighbouring number, the ends
    included when the mantissa of [x] is even. *)
Definition is_rounded_to (x v : Z) : bool :=
  let e := (Z.log2 x - 52)%Z in
  let m := Z.shiftr x e in
  let up := (2 ^ e)%Z in
  let down := (if (m =? 2 ^ 52)%Z then 2 ^ (e - 1) else 2 ^ e)%Z in
  if Z.even m then ((2 * x - down <=? 2 * v) && (2 * v <=? 2 * x + up))%Z
  else ((2 * x - down <? 2 * v) && (2 * v <? 2 * x + up))%Z.

(** The multiple of [p] that rounds to [x], if there is one: the closest of
    the two around [x], the even one on a tie. *)
Definition candidate (x p : Z) : option Z :=
  let lo := (x / p * p)%Z in
  let hi := (lo + p)%Z in
  match is_rounded_to x lo, is_rounded_to x hi with
  | true, false => Some lo
  | false, true => Some hi
  | true, true =>
      if (x - lo <? hi - x)%Z then Some lo
      else if (hi - x <? x - lo)%Z then Some hi
      else if Z.even (lo / p) then Some lo else Some hi
  | false, false => None
  end.

(** The decimal with the fewest significant digits that rounds to [x]:
    tried with [zeros] trailing zeros first, then with fewer. *)
Fixpoint shortest (x : Z) (zeros : nat) : Z :=
  match zeros with
  | O => x
  | S zeros' =>
      match candidate x (10 ^ Z.of_nat zeros) with
      | Some v => v
      | None => shortest x zeros'
      end
  end.

Fixpoint strip_zeros (rev_digits : string) : string :=
  match rev_digits with
  | String "0"%char rest => strip_zeros rest
  | _ => rev_digits
  end.

Definition significant (digits : string) : string :=
  String.rev (strip_zeros (String.rev digits)).

(** Up to 21 digits are written out; more are written [d.ddde+n]. *)
Definition format (v : Z) : string :=
  let digits := pretty v in
  let n := String.length digits in
  if (n <=? 21)%nat then digits
  else
    match significant digits with
    | String d "" => String d ("e+" +:+ pretty (n - 1)%nat)
    | String d rest => String d ("." +:+ rest +:+ "e+" +:+ pretty (n - 1)%nat)
    | "" => digits
    end.

Definition of_positive (x : Z) : string :=
  if (x <? 2 ^ 53)%Z then pretty x
  else format (shortest x (String.length (pretty x) - 1)).

Definition of_integer (n : Z) : string :=
  match n with
  | Z0 => "0"
  | Zpos _ => of_positive n
  | Zneg _ => "-" +:+ of_positive (- n)
  end.

End NumberToString.

(** ECMAScript [ToPropertyKey] on the key of a member access [o[v]]: a
    missing discriminator reads as [undefined] and is looked up under the
    name "undefined". The heap holds plain objects, whose default string
    conversion is "[object Object]". *)
Definition ToPropertyKey (v : value) : string :=
  match v with
  | VUndefined => "undefined"
  | VNull => "null"
  | VBool true => "true"
  | VBool false => "false"
  | VNumber n => NumberToString.of_integer n
  | VString s => s
  | VObject _ => "[object Object]"
  end.

(** ** Recipes: what a case reducer does with its draft *)

(** An object literal written inside a case reducer: a value at hand, or
    [{k1: e1, ..., kn: en}], allocated when it is evaluated. *)
Inductive lit :=
| LVal (v : value)
| LObj (fs : fields)
with fields :=
| FNil
| FCons (k : string) (e : lit) (fs : fields).

Scheme lit_mut := Induction for lit Sort Prop
  with fields_mut := Induction for fields Sort Prop.
Combined Scheme lit_fields_ind from lit_mut, fields_mut.

(** What a read through the draft shows: a primitive, or an object, which
    the case reducer reaches again through its path in the draft. *)
Inductive seen :=
| SeenValue (v : value)
| SeenObject.

Definition see (v : value) : seen :=
  match v with
  | VObject _ => SeenObject
  | _ => SeenValue v
  end.

(** The body of a function called with a draft, as the tree of its
    interactions with the draft: [draft.p1...pn] reads, [draft.p1...pn.key = e]
    assignments, [delete draft.p1...pn.key], ending in [return e],
    [return draft] or [throw e]. [Return (LVal VUndefined)] is a function that
    returns no value. *)
Inductive recipe :=
| Return (e : lit)
| ReturnDraft
| Throw (e : lit)
| ThrowTypeError
| DraftGet (path : list string) (k : seen -> recipe)
| DraftSet (path : list string) (key : string) (e : lit) (k : recipe)
| DraftDelete (path : list string) (key : string) (k : recipe).

(** The first argument of a recipe: immer hands it a proxy over an object
    state, and the bare value when the state is a primitive. *)
Inductive Draft :=
| Proxy
| Raw (v : value).

(** [CaseReducer<S, A> = (state: Draft<S>, action: A) => S | void] *)
Definition CaseReducer := Draft -> Action -> recipe.

(** ** The map of case reducers: a JavaScript object *)

(** What a property of the map (or of an object it inherits from) holds: a
    function, a primitive or [undefined], or an object that is not callable. *)
Inductive property :=
| PFunction (f : CaseReducer)
| PValue (v : value)
| PObject.

(** An object as member access sees it: own properties and the prototype
    link ([None] for [Object.create(null)] and for [Object.prototype]). *)
Inductive JSObject := mkObject {
  own : gmap string property;
  proto : option JSObject
}.

(** [o[k]]: ECMAScript [[Get]], own property first, then the prototype chain. *)
Fixpoint Get (o : JSObject) (k : string) : property :=
  match o with
  | mkObject props parent =>
      match props !! k with
      | Some p => p
      | None =>
          match parent with
          | Some o' => Get o' k
          | None => PValue VUndefined
          end
      end
  end.

(** [k in o] *)
Fixpoint HasProperty (o : JSObject) (k : string) : bool :=
  match o with
  | mkObject props parent =>
      match props !! k with
      | Some _ => true
      | None =>
          match parent with
          | Some o' => HasProperty o' k
          | None => false
          end
      end
  end.

Definition truthy (p : property) : bool :=
  match p with
  | PFunction _ | PObject => true
  | PValue v => ToBoolean v
  end.

(** [f(draft, action)]: calling what is not a function throws a TypeError. *)
Definition Call (p : property) (draft : Draft) (action : Action) : recipe :=
  match p with
  | PFunction f => f draft action
  | PValue _ | PObject => ThrowTypeError
  end.

(** The members of [Object.prototype], called the way the reducer calls a
    case reducer: as plain functions of [(draft, action)] in a module (strict
    code), so with [this] undefined. *)
Module ObjectPrototype.

(** [Object(value)]: an object argument is returned as it is, anything else
    is turned into a fresh object with no own properties. *)
Definition constructor : CaseReducer :=
  fun draft _ =>
    match draft with
    | Proxy => ReturnDraft
    | Raw _ => Return (LObj FNil)
    end.

(** [Object.prototype.toString] with [this] undefined. *)
Definition toString : CaseReducer :=
  fun _ _ => Return (LVal (VString "[object Undefined]")).

(** [ToObject(this)] fails on an undefined [this]. *)
Definition needs_this : CaseReducer :=
  fun _ _ => ThrowTypeError.

(** [isPrototypeOf(V)] answers [false] for a primitive [V] before it looks
    at [this]. *)
Definition isPrototypeOf : CaseReducer :=
  fun draft _ =>
    match draft with
    | Proxy => ThrowTypeError
    | Raw _ => Return (LVal (VBool false))
    end.

Definition properties : gmap string property :=
  list_to_map
    [ ("constructor", PFunction constructor);
      ("toString", PFunction toString);
      ("toLocaleString", PFunction needs_this);
      ("valueOf", PFunction needs_this);
      ("hasOwnProperty", PFunction needs_this);
      ("isPrototypeOf", PFunction isPrototypeOf);
      ("propertyIsEnumerable", PFunction needs_this);
      ("__defineGetter__", PFunction needs_this);
      ("__defineSetter__", PFunction needs_this);
      ("__lookupGetter__", PFunction needs_this);
      ("__lookupSetter__", PFunction needs_this);
      ("__proto__", PObject) ].

End ObjectPrototype.

Definition Object_prototype : JSObject :=
  mkObject ObjectPrototype.properties None.

(** An object literal [{k1: f1, ..., kn: fn}] inherits from
    [Object.prototype]. *)
Definition object_literal (props : gmap string property) : JSObject :=
  mkObject props (Some Object_prototype).

(** [Object.create(null)] with the given own properties. *)
Definition null_prototype_object (props : gmap string property) : JSObject :=
  mkObject props None.

(** ** The producer: [createNextState], immer's [produce] *)

(** What ends a call: a value, or an exception, which is either the engine's
    TypeError or the value a [throw] statement raised. *)
Inductive exn :=
| TypeError
| Raised (v : value).

Inductive completion :=
| Normal (v : value)
| Abrupt (e : exn).

(** How a recipe ends. *)
Inductive finish :=
| Returned (v : value)
| ReturnedDraft
| Threw (e : exn).

(** Evaluating an object literal allocates its objects, innermost first, at
    references the heap does not use yet. *)
Fixpoint eval_lit (e : lit) (h : heap) : value * heap :=
  match e with
  | LVal v => (v, h)
  | LObj fs =>
      let '(o, h') := eval_fields fs ∅ h in
      let l := fresh (dom h') in
      (VObject l, <[l := o]> h')
  end
with eval_fields (fs : fields) (o : object) (h : heap) : object * heap :=
  match fs with
  | FNil => (o, h)
  | FCons k e fs' =>
      let '(v, h') := eval_lit e h in
      eval_fields fs' (<[k := v]> o) h'
  end.

(** [v.k] on own data properties; [None] is the TypeError of reading a
    property of [undefined] or [null] (or of a reference to no object).
    Numbers and booleans have no own properties; those of a string (its
    length and characters) are left out. *)
Definition get_property (h : heap) (v : value) (k : string) : option value :=
  match v with
  | VUndefined | VNull => None
  | VObject l => o ← h !! l; Some (default VUndefined (o !! k))
  | _ => Some VUndefined
  end.

(** [draft.p1...pn] *)
Fixpoint draft_get (h : heap) (v : value) (path : list string) : option value :=
  match path with
  | [] => Some v
  | k :: path' => v' ← get_property h v k; draft_get h v' path'
  end.

(** One in-place looking edit of an object. *)
Inductive edit :=
| Assign (key : string) (v : value)
| Remove (key : string).

Definition apply_edit (ed : edit) (o : object) : object :=
  match ed with
  | Assign k v => <[k := v]> o
  | Remove k => delete k o
  end.

(** Modelled from the spec: the copy-on-write step of the external producer
    (immer, not part of this repository's sources). Section 6: "baseValue
    itself is never altered". An object that was there when the producer was
    entered ([B], the references of the heap at that time) is copied to a
    fresh reference before the new contents are stored; an object the producer
    allocated itself is updated where it is. *)
Definition write (B : gset loc) (l : loc) (o : object) (h : heap) : loc * heap :=
  if decide (l ∈ B) then
    let l' := fresh (dom h) in (l', <[l' := o]> h)
  else (l, <[l := o]> h).

(** Modelled from the spec: an edit at [draft.p1...pn] in the external
    producer. Section 4.1: the producer "produces a new state value sharing
    unmodified substructure with the original and copying only the paths that
    were edited". The edited object and each object on the path down to it
    are written through [write], a parent is relinked only when its child
    moved, and everything off the path keeps its reference. [None] is the
    TypeError of an edit below [undefined] or [null] and of an assignment to
    a property of a primitive; deleting a property of a primitive does
    nothing. *)
Fixpoint draft_edit (B : gset loc) (ed : edit) (path : list string)
    (v : value) (h : heap) : option (value * heap) :=
  match v with
  | VObject l =>
      o ← h !! l;
      match path with
      | [] =>
          let '(l', h') := write B l (apply_edit ed o) h in
          Some (VObject l', h')
      | k :: path' =>
          let c := default VUndefined (o !! k) in
          '(c', h') ← draft_edit B ed path' c h;
          if decide (c' = c) then Some (v, h')
          else
            let '(l', h'') := write B l (<[k := c']> o) h' in
            Some (VObject l', h'')
      end
  | VUndefined | VNull => None
  | _ =>
      match path, ed with
      | [], Remove _ => Some (v, h)
      | _, _ => None
      end
  end.

(** Running a recipe against the draft whose current root is [root]. *)
Fixpoint run (B : gset loc) (r : recipe) (root : value) (h : heap)
    : finish * value * heap :=
  match r with
  | Return e => let '(v, h') := eval_lit e h in (Returned v, root, h')
  | ReturnDraft => (ReturnedDraft, root, h)
  | Throw e => let '(v, h') := eval_lit e h in (Threw (Raised v), root, h')
  | ThrowTypeError => (Threw TypeError, root, h)
  | DraftGet path k =>
      match draft_get h root path with
      | Some v => run B (k (see v)) root h
      | None => (Threw TypeError, root, h)
      end
  | DraftSet path key e k =>
      let '(v, h1) := eval_lit e h in
      match draft_edit B (Assign key v) path root h1 with
      | Some (root', h2) => run B k root' h2
      | None => (Threw TypeError, root, h1)
      end
  | DraftDelete path key k =>
      match draft_edit B (Remove key) path root h with
      | Some (root', h') => run B k root' h'
      | None => (Threw TypeError, root, h)
      end
  end.

Definition isDraftable (v : value) : bool :=
  match v with
  | VObject _ => true
  | _ => false
  end.

(** What the recipe is called with: a proxy over a draftable base, the base
    itself otherwise. *)
Definition draft_of (base : value) : Draft :=
  if isDraftable base then Proxy else Raw base.

(** Modelled from the spec: [createNextState], the default export of the
    immer package, which is imported by [createReducer.ts] and is not part of
    this repository's sources. Section 6: "produce(baseValue,
    mutatorCallback) -> newValue, where mutatorCallback(draft) may mutate
    draft in place and/or return a replacement value". Section 4.1: a returned
    value other than "no value" "becomes the authoritative next state; any
    concurrent in-place edits already applied to the draft before the return
    are discarded"; with no returned value "the producer finalizes the
    draft". Section 5: the result is "either the identical previous reference
    (no-op case) or a freshly allocated value with shared untouched
    substructure". An exception of the callback is not caught. *)
Definition createNextState (base : value) (recipe : Draft -> recipe) (h : heap)
    : completion * heap :=
  match run (dom h) (recipe (draft_of base)) base h with
  | (Returned VUndefined, root, h') => (Normal root, h')
  | (Returned v, _, h') => (Normal v, h')
  | (ReturnedDraft, root, h') => (Normal root, h')
  | (Threw e, _, h') => (Abrupt e, h')
  end.

(** ** createReducer *)

(** [function(state = initialState, action)]: the default applies when the
    argument is [undefined], and only then. *)
Definition default_parameter (arg dflt : value) : value :=
  match arg with
  | VUndefined => dflt
  | _ => arg
  end.

(** [Reducer<S> = (state: S | undefined, action: AnyAction) => S], with the
    heap it runs in. *)
Definition Reducer := value -> Action -> heap -> completion * heap.

Definition createReducer (initialState : value) (actionsMap : JSObject) : Reducer :=
  fun state action =>
    let state := default_parameter state initialState in
    createNextState state (fun draft =>
      let caseReducer := Get actionsMap (ToPropertyKey (type action)) in
      if truthy caseReducer then Call caseReducer draft action
      else Return (LVal VUndefined)).

(** ** Deep equality and well-formed heaps *)

(** The contents reachable from a value, down to depth [n]: what a deep
    comparison of two states looks at. *)
Inductive tree :=
| TLeaf (v : value)
| TCut
| TDangling
| TNode (fs : list (string * tree)).

Fixpoint snapshot (n : nat) (h : heap) (v : value) : tree :=
  match v with
  | VObject l =>
      match n with
      | 0 => TCut
      | S n' =>
          match h !! l with
          | None => TDangling
          | Some o => TNode (map_to_list (snapshot n' h <$> o))
          end
      end
  | _ => TLeaf v
  end.

(** [v1] in heap [h1] and [v2] in heap [h2] are deep-equal. *)
Definition deep_equal (h1 : heap) (v1 : value) (h2 : heap) (v2 : value) : Prop :=
  ∀ n, snapshot n h1 v1 = snapshot n h2 v2.

Definition completion_equal (h1 : heap) (c1 : completion)
    (h2 : heap) (c2 : completion) : Prop :=
  match c1, c2 with
  | Normal v1, Normal v2 => deep_equal h1 v1 h2 v2
  | Abrupt TypeError, Abrupt TypeError => True
  | Abrupt (Raised v1), Abrupt (Raised v2) => deep_equal h1 v1 h2 v2
  | _, _ => False
  end.

(** A value names an object of [D], or is a primitive. *)
Definition value_in (D : gset loc) (v : value) : Prop :=
  match v with
  | VObject l => l ∈ D
  | _ => True
  end.

#[global] Instance value_in_dec D v : Decision (value_in D v).
Proof. destruct v; simpl; apply _. Defined.

Definition object_in (D : gset loc) (o : object) : Prop :=
  map_Forall (λ _ v, value_in D v) o.

(** No object of the heap refers to an object that is not there. *)
Definition heap_closed (h : heap) : Prop :=
  map_Forall (λ _ o, object_in (dom h) o) h.

#[global] Instance object_in_dec D o : Decision (object_in D o).
Proof. unfold object_in. apply _. Defined.

#[global] Instance heap_closed_dec h : Decision (heap_closed h).
Proof. unfold heap_closed. apply _. Defined.

(** The objects a literal, and a recipe, mention by reference are in [D]. *)
Fixpoint lit_in (D : gset loc) (e : lit) : Prop :=
  match e with
  | LVal v => value_in D v
  | LObj fs => fields_in D fs
  end
with fields_in (D : gset loc) (fs : fields) : Prop :=
  match fs with
  | FNil => True
  | FCons _ e fs' => lit_in D e ∧ fields_in D fs'
  end.

Fixpoint recipe_in (D : gset loc) (r : recipe) : Prop :=
  match r with
  | Return e | Throw e => lit_in D e
  | ReturnDraft | ThrowTypeError => True
  | DraftGet _ k => ∀ s, recipe_in D (k s)
  | DraftSet _ _ e k => lit_in D e ∧ recipe_in D k
  | DraftDelete _ _ k => recipe_in D k
  end.

(** [frame B h h']: from [h] to [h'] no object of [B] changed and no object
    disappeared. *)
Definition frame (B : gset loc) (h h' : heap) : Prop :=
  dom h ⊆ dom h' ∧ ∀ l, l ∈ B → h' !! l = h !! l.

(** ** Relating two runs of a recipe

    Two runs of the same recipe in two heaps allocate at different
    references; [φ] sends each reference of the first run to the reference
    that plays its part in the second. *)

Definition rename (φ : loc → loc) (v : value) : value :=
  match v with
  | VObject l => VObject (φ l)
  | _ => v
  end.

Definition rename_edit (φ : loc → loc) (ed : edit) : edit :=
  match ed with
  | Assign k v => Assign k (rename φ v)
  | Remove k => Remove k
  end.

Definition rename_exn (φ : loc → loc) (e : exn) : exn :=
  match e with
  | TypeError => TypeError
  | Raised v => Raised (rename φ v)
  end.

Definition rename_finish (φ : loc → loc) (fin : finish) : finish :=
  match fin with
  | Returned v => Returned (rename φ v)
  | ReturnedDraft => ReturnedDraft
  | Threw e => Threw (rename_exn φ e)
  end.

Definition finish_in (D : gset loc) (fin : finish) : Prop :=
  match fin with
  | Returned v | Threw (Raised v) => value_in D v
  | _ => True
  end.

Definition edit_in (D : gset loc) (ed : edit) : Prop :=
  match ed with
  | Assign _ v => value_in D v
  | Remove _ => True
  end.

(** The heap [hA] of the first run and [hB] of the second hold the same
    objects up to [φ]; [BA] and [BB] are the references each run must not
    write to. *)
Record related (φ : loc → loc) (BA BB : gset loc) (hA hB : heap) : Prop := {
  rel_lookup : ∀ l o, hA !! l = Some o → hB !! φ l = Some (rename φ <$> o);
  rel_base : ∀ l, l ∈ dom hA → (l ∈ BA ↔ φ l ∈ BB);
  rel_inj : ∀ l1 l2, l1 ∈ dom hA → l2 ∈ dom hA → φ l1 = φ l2 → l1 = l2;
  rel_closed : heap_closed hA;
  rel_id : ∀ l, l ∈ BA → φ l = l;
  rel_baseA : BA ⊆ dom hA;
  rel_baseB : BB ⊆ dom hB
}.

(** [φ'] extends [φ] on [D]. *)
Definition agree (D : gset loc) (φ φ' : loc → loc) : Prop :=
  ∀ l, l ∈ D → φ' l = φ l.

(** ** The examples of the specification *)

Module Examples.

Definition count (n : Z) : object := {[ "count" := VNumber n ]}.

(** The [draft.count += 1] of the specification, guarded so that the sum is
    exact:
    [if (Number.isSafeInteger(draft.count)
         && draft.count < Number.MAX_SAFE_INTEGER) draft.count += 1] *)
Definition increment : CaseReducer :=
  fun _ _ =>
    DraftGet ["count"] (fun s =>
      match s with
      | SeenValue (VNumber n) =>
          if bool_decide (- (2 ^ 53 - 1) ≤ n < 2 ^ 53 - 1)%Z then
            DraftSet [] "count" (LVal (VNumber (n + 1))) (Return (LVal VUndefined))
          else Return (LVal VUndefined)
      | _ => Return (LVal VUndefined)
      end).

(** [return {count: 0}] *)
Definition reset : CaseReducer :=
  fun _ _ => Return (LObj (FCons "count" (LVal (VNumber 0)) FNil)).

(** [draft.count = 7; return {count: 0}] *)
Definition set_and_reset : CaseReducer :=
  fun _ _ =>
    DraftSet [] "count" (LVal (VNumber 7))
      (Return (LObj (FCons "count" (LVal (VNumber 0)) FNil))).

(** [draft.x = 5] *)
Definition set_x : CaseReducer :=
  fun _ _ => DraftSet [] "x" (LVal (VNumber 5)) (Return (LVal VUndefined)).

(** [draft.count = 1; throw "boom"] *)
Definition boom : CaseReducer :=
  fun _ _ =>
    DraftSet [] "count" (LVal (VNumber 1)) (Throw (LVal (VString "boom"))).

Definition handlers : JSObject :=
  object_literal
    (<["increment" := PFunction increment]>
    (<["reset" := PFunction reset]>
    (<["set_and_reset" := PFunction set_and_reset]>
    (<["set_x" := PFunction set_x]>
    (<["boom" := PFunction boom]> ∅))))).

(** [{undefined: reset}], as [{[someAction.type]: reset}] gives when the
    constant is missing. *)
Definition keyed_undefined : JSObject :=
  object_literal {[ "undefined" := PFunction reset ]}.

(** Reference 1 is the initial state [{count: 0}], reference 2 the current
    state [{count: 3, other: <1>}]. *)
Definition initial : value := VObject 1%positive.
Definition current : value := VObject 2%positive.

Definition h0 : heap :=
  <[1%positive := count 0]>
  (<[2%positive := <["other" := VObject 1%positive]> (count 3)]> ∅).

Definition action (kind : string) : Action :=
  {| type := VString kind; payload := VUndefined |}.

(** The heap after [increment] on [current]: the copy [{count: 4, other: <1>}]
    at reference 3. *)
Definition h_incremented : heap :=
  <[3%positive := <["count" := VNumber 4]> (<["other" := VObject 1%positive]> (count 3))]> h0.

(** The heap after a second [increment] on [current], run in
    [h_incremented]: another copy, at reference 4. *)
Definition h_incremented_twice : heap :=
  <[4%positive := <["count" := VNumber 4]> (<["other" := VObject 1%positive]> (count 3))]>
    h_incremented.

(** The heap after [set_x] on [current]. *)
Definition h_set_x : heap :=
  <[3%positive := <["x" := VNumber 5]> (<["other" := VObject 1%positive]> (count 3))]> h0.

(** The heap after [set_and_reset] on [current]: the edited copy at
    reference 3, the returned [{count: 0}] at reference 4. *)
Definition h_set_and_reset : heap :=
  <[4%positive := count 0]>
  (<[3%positive := <["count" := VNumber 7]> (<["other" := VObject 1%positive]> (count 3))]> h0).

(** The heap after [boom] on [current]: the edited copy at reference 3 is
    garbage. *)
Definition h_boom : heap :=
  <[3%positive := <["count" := VNumber 1]> (<["other" := VObject 1%positive]> (count 3))]> h0.

(** An action without discriminator. *)
Definition untyped : Action :=
  {| type := VUndefined; payload := VNumber 1 |}.

End Examples.

(** ** Case reducers that only read *)

(** A recipe that reads the draft and then returns nothing, or the draft
    itself: it has no assignment, no [delete], no literal and no [throw]. *)
Fixpoint read_only (r : recipe) : Prop :=
  match r with
  | Return (LVal VUndefined) | ReturnDraft => True
  | DraftGet _ k => ∀ s, read_only (k s)
  | _ => False
  end.

(** ** Maps and case reducers for the edge cases *)

Module EdgeExamples.

(** [{toString: undefined, version: 1}]: an entry that is not a case reducer
    under an inherited name, and a truthy entry that is not a function. *)
Definition odd_entries : JSObject :=
  object_literal
    (<["toString" := PValue VUndefined]>
    (<["version" := PValue (VNumber 1)]> ∅)).

(** [increment], written so that it throws when it is handed [undefined]. *)
Definition guarded_increment : CaseReducer :=
  fun draft action =>
    match draft with
    | Raw VUndefined => Throw (LVal (VString "no state"))
    | _ => Examples.increment draft action
    end.

Definition guarded_handlers : JSObject :=
  object_literal {[ "increment" := PFunction guarded_increment ]}.

(** [if (draft.count > 100) { }]: looks at the draft and leaves it alone. *)
Definition peek : CaseReducer :=
  fun _ _ => DraftGet ["count"] (fun _ => Return (LVal VUndefined)).

Definition peek_handlers : JSObject :=
  object_literal {[ "peek" := PFunction peek ]}.

(** The names [Object.prototype] gives to functions that need their [this],
    and [__proto__], which reads as an object. *)
Definition throwing_names : list string :=
  [ "toLocaleString"; "valueOf"; "hasOwnProperty"; "propertyIsEnumerable";
    "__defineGetter__"; "__defineSetter__"; "__lookupGetter__";
    "__lookupSetter__"; "__proto__" ].

End EdgeExamples.

(** ** Three statements of the specification about the lookup *)

(** Identity for every kind that has no handler registered in the map: no
    case reducer among the map's own entries under the action's kind. *)
Definition identity_without_registered_handler : Prop :=
  ∀ init map s a h,
    (∀ f, own map !! ToPropertyKey (type a) ≠ Some (PFunction f)) →
    s ≠ VUndefined →
    createReducer init map s a h = (Normal s, h).

(** Exact-key lookup on the map's own entries: a kind that is not an own key
    of the map never changes the state. *)
Definition own_key_lookup : Prop :=
  ∀ init map s a h,
    own map !! ToPropertyKey (type a) = None →
    s ≠ VUndefined →
    createReducer init map s a h = (Normal s, h).

(** An action without discriminator never changes the state and never
    throws. *)
Definition untyped_action_is_identity : Prop :=
  ∀ init map s a h,
    type a = VUndefined →
    s ≠ VUndefined →
    createReducer init map s a h = (Normal s, h).

(** * Properties *)

(** ** Lookup *)

Lemma Get_absent k : ∀ o, HasProperty o k = false → Get o k = PValue VUndefined.
Proof.
  fix IH 1. intros [props [o'|]]; simpl; destruct (props !! k); try done.
  apply IH.
Qed.

Lemma Get_own (o : JSObject) k p : own o !! k = Some p → Get o k = p.
Proof. destruct o as [props parent]; simpl. by intros ->. Qed.

Lemma Get_null_prototype props k :
  props !! k = None → Get (null_prototype_object props) k = PValue VUndefined.
Proof. simpl. by intros ->. Qed.

(** ** The reducer when the lookup finds no case reducer *)

Lemma default_parameter_defined s init :
  s ≠ VUndefined → default_parameter s init = s.
Proof. by destruct s. Qed.

Lemma createReducer_miss init map s a h :
  truthy (Get map (ToPropertyKey (type a))) = false →
  createReducer init map s a h = (Normal (default_parameter s init), h).
Proof.
  intros Hmiss. unfold createReducer, createNextState.
  rewrite Hmiss. by simpl.
Qed.

Lemma createReducer_miss_defined init map s a h :
  truthy (Get map (ToPropertyKey (type a))) = false →
  s ≠ VUndefined →
  createReducer init map s a h = (Normal s, h).
Proof.
  intros Hmiss Hs. rewrite createReducer_miss by done.
  by rewrite default_parameter_defined.
Qed.

(** The handlers of the examples register nothing under "toString", yet the
    action of that kind reaches the inherited [Object.prototype.toString]. *)
Lemma unregistered_toString_is_called :
  (∀ f, own Examples.handlers !! "toString" ≠ Some (PFunction f))
  ∧ createReducer Examples.initial Examples.handlers Examples.current
      (Examples.action "toString") Examples.h0
    = (Normal (VString "[object Undefined]"), Examples.h0).
Proof. split; [intros f Hf; vm_compute in Hf; discriminate Hf | reflexivity]. Qed.

(** C1, counterexample: identity for every kind without a registered handler
    does not hold of the code, at the handlers of the examples and the kind
    "toString". *)
Lemma identity_without_registered_handler_fails :
  ¬ identity_without_registered_handler.
Proof.
  intros Hclaim.
  destruct unregistered_toString_is_called as [Hnone Hrun].
  pose proof (Hclaim Examples.initial Examples.handlers Examples.current
                (Examples.action "toString") Examples.h0 Hnone) as H.
  rewrite Hrun in H. discriminate H. discriminate.
Qed.

(** C1, amended. Identity on miss: when the lookup [actionsMap[action.type]]
    yields no value or a falsy one, from the map's own entries or from those
    it inherits, the reducer returns the state it was given, the same
    reference, and allocates nothing. *)
Theorem identity_on_miss init map s a h :
  truthy (Get map (ToPropertyKey (type a))) = false →
  s ≠ VUndefined →
  createReducer init map s a h = (Normal s, h).
Proof. apply createReducer_miss_defined. Qed.

Lemma identity_on_miss_witness :
  createReducer Examples.initial Examples.handlers Examples.current
    (Examples.action "unknown") Examples.h0
  = (Normal Examples.current, Examples.h0).
Proof. apply identity_on_miss; [reflexivity | discriminate]. Defined.

(** C3. Initialization: a call with [undefined] as state is a call with
    [initialState], and when no case reducer is found it returns
    [initialState]. *)
Theorem undefined_state_is_initialState init map a h :
  createReducer init map VUndefined a h = createReducer init map init a h
  ∧ (truthy (Get map (ToPropertyKey (type a))) = false →
     createReducer init map VUndefined a h = (Normal init, h)).
Proof.
  split.
  - unfold createReducer. simpl. by destruct init.
  - intros Hmiss. by rewrite createReducer_miss.
Qed.

Lemma undefined_state_is_initialState_witness :
  createReducer Examples.initial Examples.handlers VUndefined
    (Examples.action "unknown") Examples.h0
  = (Normal Examples.initial, Examples.h0).
Proof.
  apply (undefined_state_is_initialState Examples.initial Examples.handlers
           (Examples.action "unknown") Examples.h0).
  reflexivity.
Defined.

(** C10. Only [undefined] triggers the default: for a defined state, [null]
    and the other falsy values included, the reducer runs on that state, its
    result does not depend on [initialState], and on a miss it is that state. *)
Theorem defined_state_is_used init map s a h :
  s ≠ VUndefined →
  (∀ init', createReducer init' map s a h = createReducer init map s a h)
  ∧ (truthy (Get map (ToPropertyKey (type a))) = false →
     createReducer init map s a h = (Normal s, h)).
Proof.
  intros Hs. split.
  - intros init'. unfold createReducer.
    by rewrite !default_parameter_defined.
  - intros Hmiss. by apply createReducer_miss_defined.
Qed.

Lemma defined_state_is_used_witness :
  createReducer (VNumber 42) Examples.handlers VNull
    (Examples.action "unknown") Examples.h0
  = createReducer Examples.initial Examples.handlers VNull
      (Examples.action "unknown") Examples.h0
  ∧ createReducer Examples.initial Examples.handlers VNull
      (Examples.action "unknown") Examples.h0
    = (Normal VNull, Examples.h0).
Proof.
  destruct (defined_state_is_used Examples.initial Examples.handlers VNull
              (Examples.action "unknown") Examples.h0) as [Hindep Hmiss].
  - discriminate.
  - split; [exact (Hindep (VNumber 42)) | apply Hmiss; reflexivity].
Defined.

(** The falsy states [0], [""] and [false] are kept as well. *)
Example falsy_states_are_kept :
  Forall (λ s, createReducer Examples.initial Examples.handlers s
                 (Examples.action "unknown") Examples.h0
               = (Normal s, Examples.h0))
    [VNull; VNumber 0; VString ""; VBool false].
Proof. repeat constructor. Qed.

(** The map [{}] has no own key "toString", yet the action of that kind
    reaches [Object.prototype.toString], whose result replaces the state. *)
Lemma inherited_toString_is_called :
  own (object_literal ∅) !! "toString" = None
  ∧ createReducer Examples.initial (object_literal ∅) Examples.current
      (Examples.action "toString") Examples.h0
    = (Normal (VString "[object Undefined]"), Examples.h0).
Proof. split; reflexivity. Qed.

(** C5, counterexample: exact-key lookup on own entries does not hold of the
    code, at the map [{}] and the kind "toString". *)
Lemma own_key_lookup_fails : ¬ own_key_lookup.
Proof.
  intros Hclaim.
  pose proof (Hclaim Examples.initial (object_literal ∅) Examples.current
                (Examples.action "toString") Examples.h0) as H.
  destruct inherited_toString_is_called as [Hown Hrun].
  rewrite Hrun in H. specialize (H Hown). discriminate H. discriminate.
Qed.

(** C5, amended. The lookup is a member access: a kind that names no
    property of the map, own or inherited, leaves the state as it is. *)
Theorem absent_property_is_identity init map s a h :
  HasProperty map (ToPropertyKey (type a)) = false →
  s ≠ VUndefined →
  createReducer init map s a h = (Normal s, h).
Proof.
  intros Habsent Hs. apply createReducer_miss_defined; [|done].
  by rewrite Get_absent.
Qed.

Lemma absent_property_is_identity_witness :
  createReducer Examples.initial Examples.handlers Examples.current
    (Examples.action "unknown") Examples.h0
  = (Normal Examples.current, Examples.h0).
Proof. apply absent_property_is_identity; [reflexivity | discriminate]. Defined.

(** On a map without prototype the own keys decide. *)
Lemma null_prototype_own_key_lookup init props s a h :
  props !! ToPropertyKey (type a) = None →
  s ≠ VUndefined →
  createReducer init (null_prototype_object props) s a h = (Normal s, h).
Proof.
  intros Hown Hs. apply createReducer_miss_defined; [|done].
  by rewrite Get_null_prototype.
Qed.

(** A missing [type] is looked up under the name "undefined": the map
    [{undefined: reset}] handles the action. *)
Lemma untyped_action_reaches_undefined_key :
  createReducer Examples.initial Examples.keyed_undefined Examples.current
    Examples.untyped Examples.h0
  = (Normal (VObject 3%positive),
     <[3%positive := Examples.count 0]> Examples.h0).
Proof. reflexivity. Qed.

(** C8, counterexample: an action without discriminator is not always left
    unhandled, at the map [{undefined: reset}]. *)
Lemma untyped_action_is_identity_fails : ¬ untyped_action_is_identity.
Proof.
  intros Hclaim.
  pose proof (Hclaim Examples.initial Examples.keyed_undefined Examples.current
                Examples.untyped Examples.h0 eq_refl) as H.
  rewrite untyped_action_reaches_undefined_key in H.
  discriminate H. discriminate.
Qed.

(** C8, amended. An action without discriminator is looked up under the name
    "undefined"; when that lookup yields no value or a falsy one, from the
    map's own entries or from those it inherits, the reducer does not throw
    and returns the state it was given. *)
Theorem untyped_action_without_undefined_key init map s a h :
  type a = VUndefined →
  truthy (Get map "undefined") = false →
  s ≠ VUndefined →
  createReducer init map s a h = (Normal s, h).
Proof.
  intros Htype Hmiss Hs. apply createReducer_miss_defined; [|done].
  by rewrite Htype.
Qed.

Lemma untyped_action_without_undefined_key_witness :
  createReducer Examples.initial Examples.handlers Examples.current
    Examples.untyped Examples.h0
  = (Normal Examples.current, Examples.h0).
Proof.
  apply untyped_action_without_undefined_key;
    [reflexivity | reflexivity | discriminate].
Defined.

(** ** The heap only grows, and what was there is not written *)

Lemma eval_lit_fields_subseteq :
  (∀ e h v h', eval_lit e h = (v, h') → h ⊆ h')
  ∧ (∀ fs o h o' h', eval_fields fs o h = (o', h') → h ⊆ h').
Proof.
  apply lit_fields_ind; simpl.
  - intros v h v' h' [= _ <-]. done.
  - intros fs IH h v h'.
    destruct (eval_fields fs ∅ h) as [o h1] eqn:Hfs. intros [= _ <-].
    etrans; [by eapply IH|].
    apply insert_subseteq, not_elem_of_dom, is_fresh.
  - intros o h o' h' [= _ <-]. done.
  - intros k e IHe fs IHfs o h o' h'.
    destruct (eval_lit e h) as [v h1] eqn:He. intros Hfs.
    etrans; [by eapply IHe | by eapply IHfs].
Qed.

Lemma eval_lit_subseteq e h v h' : eval_lit e h = (v, h') → h ⊆ h'.
Proof. apply eval_lit_fields_subseteq. Qed.

Lemma frame_refl B h : frame B h h.
Proof. by split. Qed.

Lemma frame_trans B h1 h2 h3 : frame B h1 h2 → frame B h2 h3 → frame B h1 h3.
Proof.
  intros [Hd1 Hl1] [Hd2 Hl2]. split; [set_solver|].
  intros l Hl. by rewrite Hl2, Hl1.
Qed.

Lemma subseteq_frame B h h' : B ⊆ dom h → h ⊆ h' → frame B h h'.
Proof.
  intros HB Hsub. split; [by apply subseteq_dom|].
  intros l Hl. apply HB, elem_of_dom in Hl as [o Ho].
  rewrite Ho. by eapply lookup_weaken.
Qed.

Lemma frame_subseteq h h' : frame (dom h) h h' → h ⊆ h'.
Proof.
  intros [_ Hl]. apply map_subseteq_spec. intros l o Ho.
  rewrite Hl; [done|]. by apply elem_of_dom.
Qed.

Lemma frame_base B h h' : B ⊆ dom h → frame B h h' → B ⊆ dom h'.
Proof. intros HB [Hd _]. set_solver. Qed.

Lemma write_frame B l o h l' h' :
  B ⊆ dom h → write B l o h = (l', h') → frame B h h' ∧ l' ∉ B.
Proof.
  intros HB. unfold write. case_decide as Hl; intros [= <- <-].
  - pose proof (is_fresh (dom h)) as Hfresh. split; [split|].
    + rewrite dom_insert_L. set_solver.
    + intros l0 Hl0. apply lookup_insert_ne. set_solver.
    + set_solver.
  - split; [split|done].
    + rewrite dom_insert_L. set_solver.
    + intros l0 Hl0. apply lookup_insert_ne. set_solver.
Qed.

Lemma draft_edit_frame B ed path : ∀ v h v' h',
  B ⊆ dom h → draft_edit B ed path v h = Some (v', h') → frame B h h'.
Proof.
  induction path as [|k path IH]; intros v h v' h' HB; simpl.
  - destruct v; try done; try (destruct ed; intros [= _ <-]; apply frame_refl).
    destruct (h !! l) as [o|]; simpl; [|done].
    destruct (write B l (apply_edit ed o) h) as [l1 h1] eqn:Hw.
    intros [= _ <-]. by eapply write_frame.
  - destruct v; try done.
    destruct (h !! l) as [o|]; simpl; [|done].
    destruct (draft_edit B ed path (default VUndefined (o !! k)) h)
      as [[c' h1]|] eqn:Hrec; simpl; [|done].
    pose proof (IH _ _ _ _ HB Hrec) as Hf1.
    case_decide.
    + intros [= _ <-]. done.
    + destruct (write B l (<[k:=c']> o) h1) as [l2 h2] eqn:Hw.
      intros [= _ <-]. eapply frame_trans; [done|].
      eapply write_frame; [|done]. by eapply frame_base.
Qed.

Lemma run_frame B r : ∀ root h fin root' h',
  B ⊆ dom h → run B r root h = (fin, root', h') → frame B h h'.
Proof.
  induction r as [e| |e| |path k IH|path key e k IH|path key k IH];
    intros root h fin root' h' HB; simpl.
  - destruct (eval_lit e h) as [v h1] eqn:He. intros [= _ _ <-].
    eapply subseteq_frame; [done|]. by eapply eval_lit_subseteq.
  - intros [= _ _ <-]. apply frame_refl.
  - destruct (eval_lit e h) as [v h1] eqn:He. intros [= _ _ <-].
    eapply subseteq_frame; [done|]. by eapply eval_lit_subseteq.
  - intros [= _ _ <-]. apply frame_refl.
  - destruct (draft_get h root path) as [v|].
    + by apply IH.
    + intros [= _ _ <-]. apply frame_refl.
  - destruct (eval_lit e h) as [v h1] eqn:He.
    assert (frame B h h1) as Hf1.
    { eapply subseteq_frame; [done|]. by eapply eval_lit_subseteq. }
    pose proof (frame_base _ _ _ HB Hf1) as HB1.
    destruct (draft_edit B (Assign key v) path root h1) as [[root1 h2]|] eqn:Hed.
    + intros Hrun. pose proof (draft_edit_frame _ _ _ _ _ _ _ HB1 Hed) as Hf2.
      eapply frame_trans; [done|]. eapply frame_trans; [done|].
      eapply IH; [|done]. by eapply frame_base.
    + by intros [= _ _ <-].
  - destruct (draft_edit B (Remove key) path root h) as [[root1 h1]|] eqn:Hed.
    + intros Hrun. pose proof (draft_edit_frame _ _ _ _ _ _ _ HB Hed) as Hf1.
      eapply frame_trans; [done|].
      eapply IH; [|done]. by eapply frame_base.
    + intros [= _ _ <-]. apply frame_refl.
Qed.

Lemma createNextState_subseteq base recipe h c h' :
  createNextState base recipe h = (c, h') → h ⊆ h'.
Proof.
  unfold createNextState.
  destruct (run (dom h) _ base h) as [[fin root] h1] eqn:Hrun.
  apply run_frame in Hrun; [|done]. apply frame_subseteq in Hrun.
  destruct fin as [[]| |]; by intros [= _ <-].
Qed.

Lemma createReducer_subseteq init map s a h c h' :
  createReducer init map s a h = (c, h') → h ⊆ h'.
Proof. apply createNextState_subseteq. Qed.

Lemma heap_closed_lookup h l o k v :
  heap_closed h → h !! l = Some o → o !! k = Some v → value_in (dom h) v.
Proof. intros Hc Ho Hv. exact (Hc l o Ho k v Hv). Qed.

Lemma snapshot_subseteq n : ∀ h h' v,
  heap_closed h → value_in (dom h) v → h ⊆ h' →
  snapshot n h' v = snapshot n h v.
Proof.
  induction n as [|n IH]; intros h h' v Hc Hv Hsub; destruct v; simpl; try done.
  apply elem_of_dom in Hv as [o Ho].
  rewrite Ho, (lookup_weaken _ _ _ _ Ho Hsub).
  do 2 f_equal. apply map_fmap_ext. intros k x Hx.
  apply IH; [done| |done]. by eapply heap_closed_lookup.
Qed.

(** C2. Non-mutation of the input: whatever the case reducer does to the
    draft, every object of the heap the reducer was called in has the same
    contents when it returns or throws; the state it was given is deep-equal
    to what it was before the call. *)
Theorem previous_state_is_not_modified init map s a h c h' :
  createReducer init map s a h = (c, h') →
  h ⊆ h'
  ∧ (heap_closed h → value_in (dom h) s → deep_equal h' s h s).
Proof.
  intros Hrun. apply createReducer_subseteq in Hrun. split; [done|].
  intros Hc Hs n. by apply snapshot_subseteq.
Qed.

Lemma previous_state_is_not_modified_witness :
  Examples.h0 ⊆ Examples.h_incremented
  ∧ deep_equal Examples.h_incremented Examples.current
      Examples.h0 Examples.current.
Proof.
  destruct (previous_state_is_not_modified Examples.initial Examples.handlers
              Examples.current (Examples.action "increment") Examples.h0
              (Normal (VObject 3%positive)) Examples.h_incremented)
    as [Hsub Hdeep].
  - vm_compute. reflexivity.
  - split; [exact Hsub|]. apply Hdeep.
    + apply (bool_decide_unpack _). vm_compute. exact I.
    + apply (bool_decide_unpack _). vm_compute. exact I.
Defined.

(** ** A case reducer is found *)

(** The two examples of the specification: [increment] on [{count: 3, ...}]
    gives a new [{count: 4, ...}] and leaves the input as it was; [reset]
    gives [{count: 0}]. *)
Example increment_example :
  createReducer Examples.initial Examples.handlers Examples.current
    (Examples.action "increment") Examples.h0
  = (Normal (VObject 3%positive), Examples.h_incremented)
  ∧ Examples.h_incremented !! 3%positive
    = Some (<["count" := VNumber 4]>
              (<["other" := VObject 1%positive]> (Examples.count 3)))
  ∧ Examples.h_incremented !! 2%positive = Examples.h0 !! 2%positive.
Proof. repeat split. Qed.

Example reset_example :
  createReducer Examples.initial Examples.handlers Examples.current
    (Examples.action "reset") Examples.h0
  = (Normal (VObject 3%positive), <[3%positive := Examples.count 0]> Examples.h0).
Proof. reflexivity. Qed.

Lemma createReducer_hit init map s a h f :
  Get map (ToPropertyKey (type a)) = PFunction f →
  createReducer init map s a h
  = createNextState (default_parameter s init) (λ draft, f draft a) h.
Proof.
  intros Hget. unfold createReducer. by rewrite Hget.
Qed.

(** C4. Return wins over mutation: when the case reducer found for the
    action returns a value, that value is the result, whatever edits of the
    draft came before the return. The reducer hands the case reducer's return
    value to the producer as it is; that the producer then prefers it to the
    edited draft is the specification's account of the producer (section
    4.1), which [createNextState] follows. *)
Theorem returned_value_wins init map s a h f v root' h' :
  let state := default_parameter s init in
  Get map (ToPropertyKey (type a)) = PFunction f →
  run (dom h) (f (draft_of state) a) state h = (Returned v, root', h') →
  v ≠ VUndefined →
  createReducer init map s a h = (Normal v, h').
Proof.
  intros state Hget Hrun Hv. rewrite (createReducer_hit _ _ _ _ _ f) by done.
  unfold createNextState. fold state. rewrite Hrun. by destruct v.
Qed.

(** [draft.count = 7; return {count: 0}] on [{count: 3, ...}]: the result is
    the returned object at reference 4, not the edited draft at reference 3. *)
Lemma returned_value_wins_witness :
  createReducer Examples.initial Examples.handlers Examples.current
    (Examples.action "set_and_reset") Examples.h0
  = (Normal (VObject 4%positive), Examples.h_set_and_reset)
  ∧ Examples.h_set_and_reset !! 4%positive = Some (Examples.count 0)
  ∧ Examples.h_set_and_reset !! 3%positive
    = Some (<["count" := VNumber 7]>
              (<["other" := VObject 1%positive]> (Examples.count 3))).
Proof.
  split; [|split; reflexivity].
  apply (returned_value_wins Examples.initial Examples.handlers
           Examples.current (Examples.action "set_and_reset") Examples.h0
           Examples.set_and_reset (VObject 4%positive) (VObject 3%positive)).
  - reflexivity.
  - vm_compute. reflexivity.
  - discriminate.
Defined.

(** C6. In-place edit reconciliation: a case reducer that assigns one field
    of the draft and returns nothing yields a new object in which that field
    has the assigned value and every other field holds the very value (for
    an object, the same reference) it holds in the input state, whose object
    and all other objects are as they were. *)
Theorem in_place_edit_shares_siblings init map s a h f l o key v :
  Get map (ToPropertyKey (type a)) = PFunction f →
  f Proxy a = DraftSet [] key (LVal v) (Return (LVal VUndefined)) →
  default_parameter s init = VObject l →
  h !! l = Some o →
  ∃ l' o' h',
    createReducer init map s a h = (Normal (VObject l'), h')
    ∧ h' !! l' = Some o'
    ∧ o' !! key = Some v
    ∧ (∀ k, k ≠ key → o' !! k = o !! k)
    ∧ h ⊆ h'.
Proof.
  intros Hget Hf Hs Ho.
  pose proof (is_fresh (dom h)) as Hfresh.
  exists (fresh (dom h)), (<[key := v]> o), (<[fresh (dom h) := <[key := v]> o]> h).
  split; [|split; [|split; [|split]]].
  - rewrite (createReducer_hit _ _ _ _ _ f) by done.
    unfold createNextState. rewrite Hs. unfold draft_of. simpl.
    rewrite Hf. simpl. rewrite Ho. simpl. unfold write.
    rewrite decide_True by (by apply elem_of_dom).
    done.
  - apply lookup_insert_eq.
  - apply lookup_insert_eq.
  - intros k Hk. by apply lookup_insert_ne.
  - by apply insert_subseteq, not_elem_of_dom.
Qed.

Example set_x_example :
  createReducer Examples.initial Examples.handlers Examples.current
    (Examples.action "set_x") Examples.h0
  = (Normal (VObject 3%positive), Examples.h_set_x).
Proof. reflexivity. Qed.

(** [draft.x = 5] on [{count: 3, other: <1>}]. *)
Lemma in_place_edit_shares_siblings_witness :
  ∃ l' o' h',
    createReducer Examples.initial Examples.handlers Examples.current
      (Examples.action "set_x") Examples.h0 = (Normal (VObject l'), h')
    ∧ h' !! l' = Some o'
    ∧ o' !! "x" = Some (VNumber 5)
    ∧ (∀ k, k ≠ "x" →
         o' !! k = ((<["other" := VObject 1%positive]> (Examples.count 3)) : object) !! k)
    ∧ Examples.h0 ⊆ h'.
Proof.
  apply (in_place_edit_shares_siblings Examples.initial Examples.handlers
           Examples.current (Examples.action "set_x") Examples.h0
           Examples.set_x 2%positive).
  - reflexivity.
  - reflexivity.
  - reflexivity.
  - reflexivity.
Defined.

(** C7. A throwing case reducer: the exception leaves the reducer as it was
    thrown, no state is returned, and every object of the heap the reducer
    was called in, the prior state among them, has the contents it had. *)
Theorem handler_exception_propagates init map s a h f e root' h' :
  let state := default_parameter s init in
  Get map (ToPropertyKey (type a)) = PFunction f →
  run (dom h) (f (draft_of state) a) state h = (Threw e, root', h') →
  createReducer init map s a h = (Abrupt e, h') ∧ h ⊆ h'.
Proof.
  intros state Hget Hrun.
  assert (createReducer init map s a h = (Abrupt e, h')) as Hred.
  { rewrite (createReducer_hit _ _ _ _ _ f) by done.
    unfold createNextState. fold state. by rewrite Hrun. }
  split; [done|]. by eapply createReducer_subseteq.
Qed.

(** [draft.count = 1; throw "boom"] *)
Lemma handler_exception_propagates_witness :
  createReducer Examples.initial Examples.handlers Examples.current
    (Examples.action "boom") Examples.h0
  = (Abrupt (Raised (VString "boom")), Examples.h_boom)
  ∧ Examples.h0 ⊆ Examples.h_boom.
Proof.
  apply (handler_exception_propagates Examples.initial Examples.handlers
           Examples.current (Examples.action "boom") Examples.h0
           Examples.boom (Raised (VString "boom")) (VObject 3%positive)).
  - reflexivity.
  - vm_compute. reflexivity.
Defined.

(** ** Determinism *)

Lemma agree_refl D φ : agree D φ φ.
Proof. done. Qed.

Lemma agree_trans D D' φ1 φ2 φ3 :
  D ⊆ D' → agree D φ1 φ2 → agree D' φ2 φ3 → agree D φ1 φ3.
Proof. intros HD H12 H23 l Hl. rewrite H23, H12; [done..|]. by apply HD. Qed.

Lemma rename_agree D φ φ' v :
  agree D φ φ' → value_in D v → rename φ' v = rename φ v.
Proof. intros Hag. destruct v; simpl; try done. intros Hl. by rewrite Hag. Qed.

Lemma rename_object_agree D φ φ' (o : object) :
  agree D φ φ' → object_in D o → rename φ' <$> o = rename φ <$> o.
Proof.
  intros Hag Ho. apply map_fmap_ext. intros k v Hv.
  eapply rename_agree; [done|]. by eapply Ho.
Qed.

Lemma value_in_mono D D' v : D ⊆ D' → value_in D v → value_in D' v.
Proof. destruct v; simpl; set_solver. Qed.

Lemma object_in_mono D D' o : D ⊆ D' → object_in D o → object_in D' o.
Proof. intros HD Ho k v Hv. eapply value_in_mono; [done|]. by eapply Ho. Qed.

Lemma object_in_insert D (o : object) k v :
  value_in D v → object_in D o → object_in D (<[k := v]> o).
Proof. intros Hv Ho. by apply map_Forall_insert_2. Qed.

Lemma object_in_delete D (o : object) k :
  object_in D o → object_in D (delete k o).
Proof. intros Ho. by apply map_Forall_delete. Qed.

Lemma object_in_empty D : object_in D ∅.
Proof. apply map_Forall_empty. Qed.

Lemma object_in_lookup D (o : object) k :
  object_in D o → value_in D (default VUndefined (o !! k)).
Proof.
  intros Ho. destruct (o !! k) as [v|] eqn:Hv; simpl; [|done]. by eapply Ho.
Qed.

Lemma heap_closed_insert (h : heap) l o :
  heap_closed h → object_in ({[l]} ∪ dom h) o → heap_closed (<[l := o]> h).
Proof.
  intros Hc Ho. unfold heap_closed. rewrite dom_insert_L.
  apply map_Forall_insert_2; [done|].
  intros l' o' Ho'. eapply object_in_mono; [|by eapply Hc]. set_solver.
Qed.

Lemma related_in_dom φ BA BB hA hB l :
  related φ BA BB hA hB → l ∈ dom hA → φ l ∈ dom hB.
Proof.
  intros Hrel [o Ho]%elem_of_dom. apply elem_of_dom.
  eexists. by eapply rel_lookup.
Qed.

Lemma rename_inj φ BA BB hA hB v1 v2 :
  related φ BA BB hA hB →
  value_in (dom hA) v1 → value_in (dom hA) v2 →
  rename φ v1 = rename φ v2 → v1 = v2.
Proof.
  intros Hrel. destruct v1, v2; simpl; try done.
  intros H1 H2 [= Heq]. f_equal. by eapply rel_inj.
Qed.

(** Allocation on both sides. *)
Lemma related_alloc φ BA BB hA hB (o : object) :
  related φ BA BB hA hB →
  object_in (dom hA) o →
  let lA := fresh (dom hA) in
  let lB := fresh (dom hB) in
  let φ' := <[lA := lB]> φ in
  related φ' BA BB (<[lA := o]> hA) (<[lB := rename φ <$> o]> hB)
  ∧ agree (dom hA) φ φ'.
Proof.
  intros Hrel Ho lA lB φ'.
  pose proof (is_fresh (dom hA)) as HlA. fold lA in HlA.
  pose proof (is_fresh (dom hB)) as HlB. fold lB in HlB.
  assert (agree (dom hA) φ φ') as Hag.
  { intros l Hl. unfold φ'. rewrite fn_lookup_insert_ne; [done|]. set_solver. }
  split; [|done]. split.
  - intros l o'. destruct (decide (l = lA)) as [->|Hne].
    + rewrite lookup_insert_eq. intros [= <-].
      unfold φ'. rewrite fn_lookup_insert, lookup_insert_eq.
      f_equal. symmetry. by eapply rename_object_agree.
    + rewrite lookup_insert_ne by done. intros Ho'.
      assert (l ∈ dom hA) as Hl by (apply elem_of_dom; eauto).
      rewrite (Hag l) by done.
      rewrite lookup_insert_ne.
      2:{ intros Heq. apply HlB. rewrite Heq. by eapply related_in_dom. }
      rewrite (rel_lookup _ _ _ _ _ Hrel _ _ Ho'). f_equal.
      symmetry. eapply rename_object_agree; [done|].
      by eapply (rel_closed _ _ _ _ _ Hrel).
  - intros l. rewrite dom_insert_L. intros [->%elem_of_singleton|Hl]%elem_of_union.
    + unfold φ'. rewrite fn_lookup_insert. split.
      * intros HB. exfalso. apply HlA. by eapply (rel_baseA _ _ _ _ _ Hrel).
      * intros HB. exfalso. apply HlB. by eapply (rel_baseB _ _ _ _ _ Hrel).
    + rewrite (Hag l) by done. by eapply rel_base.
  - intros l1 l2. rewrite dom_insert_L.
    intros [->%elem_of_singleton|H1]%elem_of_union
           [->%elem_of_singleton|H2]%elem_of_union; try done.
    + unfold φ' at 1. rewrite fn_lookup_insert, (Hag l2) by done.
      intros Heq. exfalso. apply HlB. rewrite Heq. by eapply related_in_dom.
    + unfold φ' at 2. rewrite fn_lookup_insert, (Hag l1) by done.
      intros Heq. exfalso. apply HlB. rewrite <- Heq. by eapply related_in_dom.
    + rewrite (Hag l1), (Hag l2) by done. by eapply rel_inj.
  - apply heap_closed_insert; [by eapply rel_closed|].
    eapply object_in_mono; [|done]. set_solver.
  - intros l Hl. rewrite (Hag l); [by eapply rel_id|]. by eapply rel_baseA.
  - rewrite dom_insert_L. etrans; [by eapply rel_baseA | apply union_subseteq_r].
  - rewrite dom_insert_L. etrans; [by eapply rel_baseB | apply union_subseteq_r].
Qed.

(** An update in place on both sides. *)
Lemma related_update φ BA BB hA hB l (o : object) :
  related φ BA BB hA hB →
  l ∈ dom hA → l ∉ BA →
  object_in (dom hA) o →
  related φ BA BB (<[l := o]> hA) (<[φ l := rename φ <$> o]> hB).
Proof.
  intros Hrel Hl HlB Ho.
  assert (dom (<[l := o]> hA) = dom hA) as Hsame.
  { apply dom_insert_lookup_L. by apply elem_of_dom. }
  split.
  - intros l' o'. destruct (decide (l' = l)) as [->|Hne].
    + rewrite !lookup_insert_eq. by intros [= <-].
    + rewrite lookup_insert_ne by done. intros Ho'.
      rewrite lookup_insert_ne; [by eapply rel_lookup|].
      intros Heq. apply Hne. symmetry. eapply rel_inj; [done..| |done].
      apply elem_of_dom; eauto.
  - rewrite Hsame. apply (rel_base _ _ _ _ _ Hrel).
  - rewrite Hsame. apply (rel_inj _ _ _ _ _ Hrel).
  - apply heap_closed_insert; [by eapply rel_closed|].
    eapply object_in_mono; [apply union_subseteq_r|done].
  - by eapply rel_id.
  - rewrite Hsame. apply (rel_baseA _ _ _ _ _ Hrel).
  - rewrite dom_insert_L. etrans; [by eapply rel_baseB | apply union_subseteq_r].
Qed.

(** [write] on both sides. *)
Lemma related_write φ BA BB hA hB l (o : object) lA hA' :
  related φ BA BB hA hB →
  l ∈ dom hA →
  object_in (dom hA) o →
  write BA l o hA = (lA, hA') →
  ∃ φ' hB',
    write BB (φ l) (rename φ <$> o) hB = (φ' lA, hB')
    ∧ related φ' BA BB hA' hB'
    ∧ agree (dom hA) φ φ'
    ∧ lA ∈ dom hA'
    ∧ dom hA ⊆ dom hA'.
Proof.
  intros Hrel Hl Ho. unfold write.
  destruct (decide (l ∈ BA)) as [HB|HB]; intros [= <- <-].
  - rewrite decide_True by (by apply (rel_base _ _ _ _ _ Hrel l Hl)).
    destruct (related_alloc _ _ _ _ _ o Hrel Ho) as [Hrel' Hag].
    eexists _, _. split; [|split; [exact Hrel'|split; [exact Hag|split]]].
    + by rewrite fn_lookup_insert.
    + rewrite dom_insert_L. set_solver.
    + rewrite dom_insert_L. set_solver.
  - rewrite decide_False by (by rewrite <- (rel_base _ _ _ _ _ Hrel l Hl)).
    exists φ. eexists. split; [done|]. split; [by apply related_update|].
    split; [done|]. rewrite dom_insert_L. set_solver.
Qed.

(** Object literals on both sides. *)
Lemma related_eval BA BB :
  (∀ e φ hA hB vA hA',
     related φ BA BB hA hB → lit_in BA e →
     eval_lit e hA = (vA, hA') →
     ∃ φ' hB',
       eval_lit e hB = (rename φ' vA, hB')
       ∧ related φ' BA BB hA' hB'
       ∧ agree (dom hA) φ φ'
       ∧ value_in (dom hA') vA
       ∧ dom hA ⊆ dom hA')
  ∧ (∀ fs φ hA hB (oA : object) oA' hA',
       related φ BA BB hA hB → fields_in BA fs →
       object_in (dom hA) oA →
       eval_fields fs oA hA = (oA', hA') →
       ∃ φ' hB',
         eval_fields fs (rename φ <$> oA) hB = (rename φ' <$> oA', hB')
         ∧ related φ' BA BB hA' hB'
         ∧ agree (dom hA) φ φ'
         ∧ object_in (dom hA') oA'
         ∧ dom hA ⊆ dom hA').
Proof.
  apply lit_fields_ind; simpl.
  - intros v φ hA hB vA hA' Hrel Hv [= <- <-].
    exists φ, hB. split; [|split; [done|split; [done|split; [|done]]]].
    + f_equal. destruct v; simpl; try done. simpl in Hv.
      f_equal. symmetry. by eapply rel_id.
    + eapply value_in_mono; [by eapply rel_baseA|done].
  - intros fs IH φ hA hB vA hA' Hrel Hfs.
    destruct (eval_fields fs ∅ hA) as [oA hA1] eqn:HevA. intros [= <- <-].
    destruct (IH φ hA hB ∅ oA hA1 Hrel Hfs (object_in_empty _) HevA)
      as (φ1 & hB1 & HevB & Hrel1 & Hag1 & Ho1 & Hd1).
    rewrite fmap_empty in HevB. rewrite HevB.
    destruct (related_alloc _ _ _ _ _ oA Hrel1 Ho1) as [Hrel2 Hag2].
    eexists _, _. split; [|split; [exact Hrel2|split; [|split]]].
    + simpl. by rewrite fn_lookup_insert.
    + eapply agree_trans; [exact Hd1|exact Hag1|exact Hag2].
    + simpl. rewrite dom_insert_L. set_solver.
    + rewrite dom_insert_L. set_solver.
  - intros φ hA hB oA oA' hA' Hrel _ Ho [= <- <-].
    exists φ, hB. split; [done|split; [done|split; [done|split; done]]].
  - intros k e IHe fs IHfs φ hA hB oA oA' hA' Hrel [He Hfs] Ho.
    destruct (eval_lit e hA) as [vA hA1] eqn:HevA. intros HfsA.
    destruct (IHe φ hA hB vA hA1 Hrel He HevA)
      as (φ1 & hB1 & HevB & Hrel1 & Hag1 & Hv1 & Hd1).
    rewrite HevB.
    assert (object_in (dom hA1) (<[k := vA]> oA)) as Ho1.
    { apply object_in_insert; [done|]. by eapply object_in_mono. }
    destruct (IHfs φ1 hA1 hB1 _ oA' hA' Hrel1 Hfs Ho1 HfsA)
      as (φ2 & hB2 & HfsB & Hrel2 & Hag2 & Ho2 & Hd2).
    exists φ2, hB2. split; [|split; [done|split; [|split; [done|]]]].
    + rewrite <- HfsB. f_equal. rewrite fmap_insert. f_equal.
      symmetry. by eapply rename_object_agree.
    + eapply agree_trans; [exact Hd1|exact Hag1|exact Hag2].
    + set_solver.
Qed.

(** Reads through the draft on both sides. *)
Lemma related_get_property φ BA BB hA hB vA k :
  related φ BA BB hA hB →
  value_in (dom hA) vA →
  get_property hB (rename φ vA) k = rename φ <$> get_property hA vA k
  ∧ ∀ v, get_property hA vA k = Some v → value_in (dom hA) v.
Proof.
  intros Hrel Hv. destruct vA; simpl; try (split; [done|by intros ? [= <-]]).
  apply elem_of_dom in Hv as [o Ho].
  rewrite Ho, (rel_lookup _ _ _ _ _ Hrel _ _ Ho). simpl. split.
  - rewrite lookup_fmap. by destruct (o !! k).
  - intros v [= <-]. apply object_in_lookup.
    by eapply (rel_closed _ _ _ _ _ Hrel).
Qed.

Lemma related_draft_get φ BA BB hA hB path : ∀ vA,
  related φ BA BB hA hB →
  value_in (dom hA) vA →
  draft_get hB (rename φ vA) path = rename φ <$> draft_get hA vA path.
Proof.
  induction path as [|k path IH]; intros vA Hrel Hv; simpl; [done|].
  destruct (related_get_property _ _ _ _ _ vA k Hrel Hv) as [-> Hin].
  destruct (get_property hA vA k) as [v|]; simpl; [|done].
  apply IH; [done|]. by apply Hin.
Qed.

Lemma see_rename φ v : see (rename φ v) = see v.
Proof. by destruct v. Qed.

Lemma apply_edit_rename φ ed (o : object) :
  apply_edit (rename_edit φ ed) (rename φ <$> o) = rename φ <$> apply_edit ed o.
Proof. destruct ed; simpl; [by rewrite fmap_insert | by rewrite fmap_delete]. Qed.

Lemma apply_edit_in D ed o :
  edit_in D ed → object_in D o → object_in D (apply_edit ed o).
Proof.
  destruct ed; simpl; intros Hed Ho;
    [by apply object_in_insert | by apply object_in_delete].
Qed.

(** Edits of the draft on both sides. *)
Lemma related_draft_edit BA BB ed path : ∀ φ hA hB vA,
  related φ BA BB hA hB →
  value_in (dom hA) vA →
  edit_in (dom hA) ed →
  match draft_edit BA ed path vA hA with
  | None => draft_edit BB (rename_edit φ ed) path (rename φ vA) hB = None
  | Some (vA', hA') =>
      ∃ φ' hB',
        draft_edit BB (rename_edit φ ed) path (rename φ vA) hB
        = Some (rename φ' vA', hB')
        ∧ related φ' BA BB hA' hB'
        ∧ agree (dom hA) φ φ'
        ∧ value_in (dom hA') vA'
        ∧ dom hA ⊆ dom hA'
  end.
Proof.
  induction path as [|k path IH]; intros φ hA hB vA Hrel Hv Hed.
  - destruct vA as [| | | | |l]; simpl; try done;
      try (destruct ed; simpl; [done|];
           exists φ, hB; split; [done|split; [done|split; [done|split; done]]]).
    simpl in Hv. apply elem_of_dom in Hv as Hlook. destruct Hlook as [o Ho].
    rewrite Ho, (rel_lookup _ _ _ _ _ Hrel _ _ Ho). simpl.
    destruct (write BA l (apply_edit ed o) hA) as [lA hA'] eqn:Hw.
    assert (object_in (dom hA) (apply_edit ed o)) as Ho'.
    { apply apply_edit_in; [done|]. by eapply (rel_closed _ _ _ _ _ Hrel). }
    destruct (related_write _ _ _ _ _ _ _ _ _ Hrel Hv Ho' Hw)
      as (φ' & hB' & HwB & Hrel' & Hag & HlA & Hd).
    rewrite apply_edit_rename, HwB.
    exists φ', hB'. split; [done|split; [done|split; [done|split; done]]].
  - destruct vA as [| | | | |l]; simpl; try done.
    simpl in Hv. apply elem_of_dom in Hv as Hlook. destruct Hlook as [o Ho].
    rewrite Ho, (rel_lookup _ _ _ _ _ Hrel _ _ Ho). simpl.
    assert (object_in (dom hA) o) as Hobj
      by (by eapply (rel_closed _ _ _ _ _ Hrel)).
    set (c := default VUndefined (o !! k)).
    assert (value_in (dom hA) c) as Hc by (by apply object_in_lookup).
    assert (default VUndefined ((rename φ <$> o) !! k) = rename φ c) as ->.
    { unfold c. rewrite lookup_fmap. by destruct (o !! k). }
    specialize (IH φ hA hB c Hrel Hc Hed).
    destruct (draft_edit BA ed path c hA) as [[c' hA1]|]; simpl.
    2:{ by rewrite IH. }
    destruct IH as (φ1 & hB1 & -> & Hrel1 & Hag1 & Hc' & Hd1). simpl.
    assert (rename φ c = rename φ1 c) as Hcc.
    { symmetry. by eapply rename_agree. }
    destruct (decide (c' = c)) as [->|Hne].
    + rewrite decide_True by done.
      exists φ1, hB1. split; [|split; [done|split; [done|split; [|done]]]].
      * simpl. by rewrite (Hag1 l Hv).
      * simpl. by apply Hd1.
    + rewrite decide_False.
      2:{ rewrite Hcc. intros Heq. apply Hne.
          eapply (rename_inj _ _ _ _ _ _ _ Hrel1);
            [done | by eapply value_in_mono | done]. }
      destruct (write BA l (<[k:=c']> o) hA1) as [lA hA2] eqn:Hw.
      assert (object_in (dom hA1) (<[k:=c']> o)) as Ho'.
      { apply object_in_insert; [done|]. by eapply object_in_mono. }
      assert (l ∈ dom hA1) as Hl1 by (by apply Hd1).
      destruct (related_write _ _ _ _ _ _ _ _ _ Hrel1 Hl1 Ho' Hw)
        as (φ2 & hB2 & HwB & Hrel2 & Hag2 & HlA & Hd2).
      rewrite fmap_insert, (Hag1 l Hv) in HwB.
      rewrite (rename_object_agree _ _ _ _ Hag1 Hobj) in HwB.
      rewrite HwB.
      exists φ2, hB2. split; [done|split; [done|split; [|split; [done|]]]].
      * eapply agree_trans; [exact Hd1|exact Hag1|exact Hag2].
      * set_solver.
Qed.

(** A recipe run on both sides. *)
Lemma related_run BA BB r : ∀ φ hA hB rootA finA rootA' hA',
  related φ BA BB hA hB →
  value_in (dom hA) rootA →
  recipe_in BA r →
  run BA r rootA hA = (finA, rootA', hA') →
  ∃ φ' hB',
    run BB r (rename φ rootA) hB = (rename_finish φ' finA, rename φ' rootA', hB')
    ∧ related φ' BA BB hA' hB'
    ∧ value_in (dom hA') rootA'
    ∧ finish_in (dom hA') finA.
Proof.
  induction r as [e| |e| |path k IH|path key e k IH|path key k IH];
    intros φ hA hB rootA finA rootA' hA' Hrel Hroot Hr; simpl.
  - destruct (eval_lit e hA) as [vA hA1] eqn:HevA. intros [= <- <- <-].
    destruct (proj1 (related_eval BA BB) e φ hA hB vA hA1 Hrel Hr HevA)
      as (φ1 & hB1 & -> & Hrel1 & Hag1 & Hv1 & Hd1).
    exists φ1, hB1. split; [|split; [done|split; [|done]]].
    + by rewrite (rename_agree _ _ _ _ Hag1 Hroot).
    + by eapply value_in_mono.
  - intros [= <- <- <-]. exists φ, hB. by split_and!.
  - destruct (eval_lit e hA) as [vA hA1] eqn:HevA. intros [= <- <- <-].
    destruct (proj1 (related_eval BA BB) e φ hA hB vA hA1 Hrel Hr HevA)
      as (φ1 & hB1 & -> & Hrel1 & Hag1 & Hv1 & Hd1).
    exists φ1, hB1. split; [|split; [done|split; [|done]]].
    + by rewrite (rename_agree _ _ _ _ Hag1 Hroot).
    + by eapply value_in_mono.
  - intros [= <- <- <-]. exists φ, hB. by split_and!.
  - rewrite (related_draft_get _ _ _ _ _ path rootA Hrel Hroot).
    destruct (draft_get hA rootA path) as [v|]; simpl.
    + rewrite see_rename. by apply IH.
    + intros [= <- <- <-]. exists φ, hB. by split_and!.
  - destruct Hr as [He Hk].
    destruct (eval_lit e hA) as [vA hA1] eqn:HevA.
    destruct (proj1 (related_eval BA BB) e φ hA hB vA hA1 Hrel He HevA)
      as (φ1 & hB1 & -> & Hrel1 & Hag1 & Hv1 & Hd1).
    assert (value_in (dom hA1) rootA) as Hroot1 by (by eapply value_in_mono).
    rewrite <- (rename_agree _ _ _ _ Hag1 Hroot).
    pose proof (related_draft_edit BA BB (Assign key vA) path φ1 hA1 hB1 rootA
                  Hrel1 Hroot1 Hv1) as Hed. simpl in Hed.
    destruct (draft_edit BA (Assign key vA) path rootA hA1) as [[rootA1 hA2]|].
    + destruct Hed as (φ2 & hB2 & -> & Hrel2 & Hag2 & Hroot2 & Hd2).
      by apply IH.
    + rewrite Hed. intros [= <- <- <-].
      exists φ1, hB1. by split_and!.
  - pose proof (related_draft_edit BA BB (Remove key) path φ hA hB rootA
                  Hrel Hroot I) as Hed. simpl in Hed.
    destruct (draft_edit BA (Remove key) path rootA hA) as [[rootA1 hA1]|].
    + destruct Hed as (φ1 & hB1 & -> & Hrel1 & Hag1 & Hroot1 & Hd1).
      by apply IH.
    + rewrite Hed. intros [= <- <- <-].
      exists φ, hB. by split_and!.
Qed.

Lemma related_snapshot φ BA BB hA hB n : ∀ v,
  related φ BA BB hA hB →
  value_in (dom hA) v →
  snapshot n hB (rename φ v) = snapshot n hA v.
Proof.
  induction n as [|n IH]; intros v Hrel Hv; destruct v; simpl; try done.
  apply elem_of_dom in Hv as [o Ho].
  rewrite Ho, (rel_lookup _ _ _ _ _ Hrel _ _ Ho).
  do 2 f_equal. rewrite <- map_fmap_compose.
  apply map_fmap_ext. intros k x Hx. simpl.
  apply IH; [done|]. eapply heap_closed_lookup; [|done..].
  by eapply rel_closed.
Qed.

Lemma rename_id v : rename id v = v.
Proof. by destruct v. Qed.

Lemma related_subseteq h hB :
  heap_closed h → h ⊆ hB → related id (dom h) (dom hB) h hB.
Proof.
  intros Hc Hsub. split; try done.
  - intros l o Ho. simpl. rewrite (lookup_weaken _ _ _ _ Ho Hsub). f_equal.
    rewrite <- (map_fmap_id o) at 1. apply map_fmap_ext.
    intros k v _. by rewrite rename_id.
  - intros l Hl. simpl. split; [|done]. by apply subseteq_dom.
Qed.

Lemma related_deep_equal φ BA BB hA hB v :
  related φ BA BB hA hB →
  value_in (dom hA) v →
  deep_equal hA v hB (rename φ v).
Proof. intros Hrel Hv n. symmetry. by eapply related_snapshot. Qed.

(** C9. Determinism: with a fixed map, a call of the reducer on (state,
    action) in a heap, and a call on the same (state, action) later, in any
    heap that extends the first one (as every heap after further calls does),
    end the same way with deep-equal results: nothing but the state and the
    action decides the result. The heap is well formed and the case reducer
    mentions only objects that exist. *)
Theorem replay_is_deep_equal init map s a h hB c1 h1 c2 h2 :
  heap_closed h →
  value_in (dom h) s →
  value_in (dom h) init →
  (∀ f d, Get map (ToPropertyKey (type a)) = PFunction f →
          recipe_in (dom h) (f d a)) →
  h ⊆ hB →
  createReducer init map s a h = (c1, h1) →
  createReducer init map s a hB = (c2, h2) →
  completion_equal h1 c1 h2 c2.
Proof.
  intros Hc Hs Hinit Hwf Hsub. unfold createReducer, createNextState.
  set (state := default_parameter s init).
  assert (value_in (dom h) state) as Hstate by (unfold state; by destruct s).
  set (r := if truthy (Get map (ToPropertyKey (type a)))
            then Call (Get map (ToPropertyKey (type a))) (draft_of state) a
            else Return (LVal VUndefined)).
  assert (recipe_in (dom h) r) as Hr.
  { unfold r. destruct (Get map (ToPropertyKey (type a))) as [f|v|] eqn:Hget;
      simpl; [by apply Hwf| by destruct (ToBoolean v) | done]. }
  destruct (run (dom h) r state h) as [[finA rootA] hA'] eqn:HrunA.
  destruct (related_run (dom h) (dom hB) r id h hB state finA rootA hA'
              (related_subseteq _ _ Hc Hsub) Hstate Hr HrunA)
    as (φ' & hB' & HrunB & Hrel' & Hroot' & Hfin').
  rewrite rename_id in HrunB. rewrite HrunB.
  pose proof (related_deep_equal _ _ _ _ _ rootA Hrel' Hroot') as Hdeep.
  destruct finA as [v| |[|v]]; simpl in *.
  - pose proof (related_deep_equal _ _ _ _ _ v Hrel' Hfin') as Hv.
    destruct v; simpl in *; by intros [= <- <-] [= <- <-].
  - by intros [= <- <-] [= <- <-].
  - by intros [= <- <-] [= <- <-].
  - intros [= <- <-] [= <- <-]. simpl.
    by apply (related_deep_equal _ _ _ _ _ v Hrel').
Qed.

(** [increment] on [{count: 3, ...}], and once more in the heap the first
    call left: the copies at references 3 and 4 are deep-equal. *)
Lemma replay_is_deep_equal_witness :
  completion_equal
    Examples.h_incremented (Normal (VObject 3%positive))
    Examples.h_incremented_twice (Normal (VObject 4%positive)).
Proof.
  apply (replay_is_deep_equal Examples.initial Examples.handlers
           Examples.current (Examples.action "increment")
           Examples.h0 Examples.h_incremented).
  - apply (bool_decide_unpack _). vm_compute. exact I.
  - apply (bool_decide_unpack _). vm_compute. exact I.
  - apply (bool_decide_unpack _). vm_compute. exact I.
  - intros f d Hget.
    change (PFunction Examples.increment = PFunction f) in Hget.
    injection Hget as <-. unfold Examples.increment. simpl.
    intros [[]|]; simpl; try case_bool_decide; simpl; repeat split.
  - apply insert_subseteq. reflexivity.
  - vm_compute. reflexivity.
  - vm_compute. reflexivity.
Defined.

(** * Further properties of the reducer *)

(** ** Entries that are not case reducers *)

(** X1. An own entry that is falsy ([undefined], [null], [false], [0], [""])
    counts as no case reducer: the state is returned as it is, also when the
    name is one the map would otherwise inherit. *)
Theorem falsy_entry_is_skipped init props parent s a h v :
  props !! ToPropertyKey (type a) = Some (PValue v) →
  ToBoolean v = false →
  s ≠ VUndefined →
  createReducer init (mkObject props parent) s a h = (Normal s, h).
Proof.
  intros Hown Hv Hs. apply createReducer_miss_defined; [|done].
  by rewrite (Get_own (mkObject props parent) _ _ Hown).
Qed.

(** [{toString: undefined}] switches the inherited [toString] off. *)
Lemma falsy_entry_is_skipped_witness :
  createReducer Examples.initial EdgeExamples.odd_entries Examples.current
    (Examples.action "toString") Examples.h0
  = (Normal Examples.current, Examples.h0).
Proof.
  apply (falsy_entry_is_skipped _ _ _ _ _ _ VUndefined);
    [reflexivity | reflexivity | discriminate].
Defined.

(** X2. An entry that is truthy and not a function makes the reducer throw a
    TypeError, for every state; nothing is allocated or changed. *)
Theorem non_function_entry_throws init map s a h :
  truthy (Get map (ToPropertyKey (type a))) = true →
  (∀ f, Get map (ToPropertyKey (type a)) ≠ PFunction f) →
  createReducer init map s a h = (Abrupt TypeError, h).
Proof.
  intros Htruthy Hnot. unfold createReducer, createNextState.
  rewrite Htruthy.
  destruct (Get map (ToPropertyKey (type a))) as [f|v|]; simpl; try done.
  by destruct (Hnot f).
Qed.

Lemma non_function_entry_throws_witness :
  createReducer Examples.initial EdgeExamples.odd_entries Examples.current
    (Examples.action "version") Examples.h0
  = (Abrupt TypeError, Examples.h0).
Proof.
  apply non_function_entry_throws; [reflexivity|].
  intros f Hget. vm_compute in Hget. discriminate Hget.
Defined.

Lemma createReducer_call_throws init map s a h :
  truthy (Get map (ToPropertyKey (type a))) = true →
  (∀ d, Call (Get map (ToPropertyKey (type a))) d a = ThrowTypeError) →
  createReducer init map s a h = (Abrupt TypeError, h).
Proof.
  intros Htruthy Hcall. unfold createReducer, createNextState.
  by rewrite Htruthy, Hcall.
Qed.

(** X3. On a map written as an object literal, an action whose kind is one of
    the inherited names in [throwing_names], and not an own key, makes the
    reducer throw a TypeError, for every state. *)
Theorem inherited_member_throws init props s a h :
  ToPropertyKey (type a) ∈ EdgeExamples.throwing_names →
  props !! ToPropertyKey (type a) = None →
  createReducer init (object_literal props) s a h = (Abrupt TypeError, h).
Proof.
  intros Hname Hown.
  assert (∀ k, k ∈ EdgeExamples.throwing_names →
               truthy (Get Object_prototype k) = true
               ∧ ∀ d, Call (Get Object_prototype k) d a = ThrowTypeError)
    as Hnames.
  { intros k Hk. unfold EdgeExamples.throwing_names in Hk.
    repeat (apply elem_of_cons in Hk as [->|Hk]; [by split|]).
    by apply elem_of_nil in Hk. }
  destruct (Hnames _ Hname) as [Htruthy Hcall].
  apply createReducer_call_throws; simpl; by rewrite Hown.
Qed.

(** [valueOf] on the handlers of the examples. *)
Lemma inherited_member_throws_witness :
  createReducer Examples.initial Examples.handlers Examples.current
    (Examples.action "valueOf") Examples.h0
  = (Abrupt TypeError, Examples.h0).
Proof.
  apply (inherited_member_throws Examples.initial _ Examples.current
           (Examples.action "valueOf") Examples.h0).
  - apply (bool_decide_unpack _). vm_compute. exact I.
  - reflexivity.
Defined.

(** ** What the reducer looks at in the map *)

Lemma createReducer_same_property init map map' s a h :
  Get map (ToPropertyKey (type a)) = Get map' (ToPropertyKey (type a)) →
  createReducer init map s a h = createReducer init map' s a h.
Proof. intros Hget. unfold createReducer. by rewrite Hget. Qed.

(** X4. An own entry shadows what the map inherits: when the action's kind is
    an own key, the prototype chain makes no difference to the reducer. *)
Theorem own_entry_shadows_prototype init props parent parent' s a h :
  is_Some (props !! ToPropertyKey (type a)) →
  createReducer init (mkObject props parent) s a h
  = createReducer init (mkObject props parent') s a h.
Proof.
  intros [p Hp]. apply createReducer_same_property. simpl. by rewrite Hp.
Qed.

(** [increment] is an own key of the handlers: with or without
    [Object.prototype] behind them the result is the same. *)
Lemma own_entry_shadows_prototype_witness :
  createReducer Examples.initial Examples.handlers Examples.current
    (Examples.action "increment") Examples.h0
  = createReducer Examples.initial (null_prototype_object (own Examples.handlers))
      Examples.current (Examples.action "increment") Examples.h0.
Proof.
  apply (own_entry_shadows_prototype Examples.initial (own Examples.handlers)
           (Some Object_prototype) None Examples.current
           (Examples.action "increment") Examples.h0).
  eexists. reflexivity.
Defined.

(** X5. The reducer looks at one entry only: adding, replacing or removing an
    own entry under another key than the action's does not change what the
    reducer does with the action. *)
Theorem other_entries_do_not_matter init props parent k p s a h :
  k ≠ ToPropertyKey (type a) →
  createReducer init (mkObject (<[k := p]> props) parent) s a h
  = createReducer init (mkObject props parent) s a h
  ∧ createReducer init (mkObject (delete k props) parent) s a h
    = createReducer init (mkObject props parent) s a h.
Proof.
  intros Hk. split; apply createReducer_same_property; simpl.
  - by rewrite lookup_insert_ne.
  - by rewrite lookup_delete_ne.
Qed.

Lemma other_entries_do_not_matter_witness :
  createReducer Examples.initial
    (mkObject (<["reset" := PValue VNull]> (own Examples.handlers))
       (Some Object_prototype))
    Examples.current (Examples.action "increment") Examples.h0
  = createReducer Examples.initial
      (mkObject (own Examples.handlers) (Some Object_prototype))
      Examples.current (Examples.action "increment") Examples.h0
  ∧ createReducer Examples.initial
      (mkObject (delete "reset" (own Examples.handlers)) (Some Object_prototype))
      Examples.current (Examples.action "increment") Examples.h0
    = createReducer Examples.initial
        (mkObject (own Examples.handlers) (Some Object_prototype))
        Examples.current (Examples.action "increment") Examples.h0.
Proof.
  apply (other_entries_do_not_matter Examples.initial (own Examples.handlers)
           (Some Object_prototype) "reset" (PValue VNull) Examples.current
           (Examples.action "increment") Examples.h0).
  discriminate.
Defined.

(** X6. On a map that has no prototype the lookup is exact on own keys: a
    kind that is not an own key leaves the state as it is, inherited names
    such as "toString" included. *)
Theorem null_prototype_is_exact init map s a h :
  proto map = None →
  own map !! ToPropertyKey (type a) = None →
  s ≠ VUndefined →
  createReducer init map s a h = (Normal s, h).
Proof.
  destruct map as [props parent]. simpl. intros -> Hown Hs.
  apply createReducer_miss_defined; [|done]. simpl. by rewrite Hown.
Qed.

Lemma null_prototype_is_exact_witness :
  createReducer Examples.initial (null_prototype_object ∅) Examples.current
    (Examples.action "toString") Examples.h0
  = (Normal Examples.current, Examples.h0).
Proof.
  apply null_prototype_is_exact; [reflexivity | reflexivity | discriminate].
Defined.

(** ** The state a case reducer sees *)

Lemma draft_of_defined state : state ≠ VUndefined → draft_of state ≠ Raw VUndefined.
Proof. intros Hs. unfold draft_of. destruct state; simpl; done. Qed.

(** X7. With a defined [initialState], a case reducer is never called with an
    [undefined] state: two case reducers that differ only in what they do
    with [undefined] give the same reducer. *)
Theorem case_reducer_never_sees_undefined init map map' f g s a h :
  init ≠ VUndefined →
  Get map (ToPropertyKey (type a)) = PFunction f →
  Get map' (ToPropertyKey (type a)) = PFunction g →
  (∀ d, d ≠ Raw VUndefined → f d a = g d a) →
  createReducer init map s a h = createReducer init map' s a h.
Proof.
  intros Hinit Hf Hg Hsame.
  rewrite (createReducer_hit _ _ _ _ _ f), (createReducer_hit _ _ _ _ _ g) by done.
  unfold createNextState. rewrite Hsame; [done|].
  apply draft_of_defined. by destruct s.
Qed.

(** The guarded [increment] and the plain one, called without a state. *)
Lemma case_reducer_never_sees_undefined_witness :
  createReducer Examples.initial EdgeExamples.guarded_handlers VUndefined
    (Examples.action "increment") Examples.h0
  = createReducer Examples.initial Examples.handlers VUndefined
      (Examples.action "increment") Examples.h0.
Proof.
  apply (case_reducer_never_sees_undefined Examples.initial
           EdgeExamples.guarded_handlers Examples.handlers
           EdgeExamples.guarded_increment Examples.increment).
  - discriminate.
  - reflexivity.
  - reflexivity.
  - intros [|[]] Hd; try reflexivity. by destruct Hd.
Defined.

(** With no [initialState] the case reducer does see [undefined]. *)
Example undefined_initialState_reaches_case_reducer :
  createReducer VUndefined EdgeExamples.guarded_handlers VUndefined
    (Examples.action "increment") Examples.h0
  = (Abrupt (Raised (VString "no state")), Examples.h0).
Proof. reflexivity. Qed.

Lemma run_read_only B r : ∀ root h,
  read_only r →
  run B r root h = (Returned VUndefined, root, h)
  ∨ run B r root h = (ReturnedDraft, root, h)
  ∨ run B r root h = (Threw TypeError, root, h).
Proof.
  induction r as [e| |e| |path k IH|path key e k IH|path key k IH];
    intros root h Hr; simpl in *; try done.
  - destruct e as [[]|]; try done. by left.
  - right. by left.
  - destruct (draft_get h root path); [by apply IH | by right; right].
Qed.

(** X9. A case reducer that only reads the draft cannot change the state: the
    reducer returns the very state it was given and allocates nothing, or it
    throws the TypeError of a read below [undefined] or [null]. *)
Theorem read_only_case_reducer_keeps_state init map s a h f :
  let state := default_parameter s init in
  Get map (ToPropertyKey (type a)) = PFunction f →
  read_only (f (draft_of state) a) →
  createReducer init map s a h = (Normal state, h)
  ∨ createReducer init map s a h = (Abrupt TypeError, h).
Proof.
  intros state Hf Hr. rewrite (createReducer_hit _ _ _ _ _ f) by done.
  unfold createNextState. fold state.
  destruct (run_read_only (dom h) _ state h Hr) as [-> | [-> | ->]];
    [by left | by left | by right].
Qed.

Lemma read_only_case_reducer_keeps_state_witness :
  createReducer Examples.initial EdgeExamples.peek_handlers Examples.current
    (Examples.action "peek") Examples.h0
  = (Normal Examples.current, Examples.h0)
  ∨ createReducer Examples.initial EdgeExamples.peek_handlers Examples.current
      (Examples.action "peek") Examples.h0
    = (Abrupt TypeError, Examples.h0).
Proof.
  apply (read_only_case_reducer_keeps_state Examples.initial
           EdgeExamples.peek_handlers Examples.current
           (Examples.action "peek") Examples.h0 EdgeExamples.peek).
  - reflexivity.
  - simpl. intros _. exact I.
Defined.

(** ** Numeric kinds *)

(** A numeric [action.type] is looked up under the string JavaScript prints
    for it. *)
Example numeric_kinds :
  ToPropertyKey <$> [VNumber 1; VNumber (-15); VNumber (2 ^ 53);
                     VNumber (2 ^ 63); VNumber (10 ^ 21); VNumber (2 ^ 70)]
  = ["1"; "-15"; "9007199254740992"; "9223372036854776000"; "1e+21";
     "1.1805916207174113e+21"].
Proof. vm_compute. reflexivity. Qed.
